(** * geyser: the index-scaling compute kernel and the transcribed Vulkan
      enumeration tables

    The development has two parts.

    - [Kernel]: the GLSL compute shader (push constant block [PCData],
      storage block [Data], entry point [main]) as a state transformer on
      the bound storage buffer, with the stores it performs recorded.
    - [Enums]: the C enumeration declarations, as tables of enumerators
      with their initialisers, and the evaluation of those initialisers. *)

From Stdlib Require Import ZArith Lia.
From stdpp Require Import base decidable option list strings.

Local Open Scope Z_scope.

(* ===================================================================== *)
(** ** The compute kernel                                                 *)
(* ===================================================================== *)

Module Kernel.

(** *** 32-bit integers of GLSL *)

(** A [uint] is a [Z] in [[0, 2^32)].  Arithmetic on [uint] keeps the
    low-order 32 bits of the exact result. *)
Definition uint_modulus : Z := 2 ^ 32.

Definition wrap_uint (z : Z) : Z := z mod uint_modulus.

(** The implicit conversion of an [int] operand to [uint] (applied by GLSL
    to the signed operand of a mixed [uint]/[int] binary operator): the bit
    pattern is preserved. *)
Definition uint_of_int (z : Z) : Z := wrap_uint z.

(** [uint * uint] *)
Definition uint_mul (a b : Z) : Z := wrap_uint (a * b).

(** *** Interface blocks *)

(** [layout(push_constant) uniform PCData { int multiple; } pc;] *)
Record PCData := { multiple : Z }.

(** One store to [buf.data]: the invocation that issued it and the slot it
    addressed. *)
Record Store := { writer : Z; slot : Z }.

#[global] Instance Store_eq_dec : EqDecision Store.
Proof. solve_decision. Defined.

(** [layout(set = 0, binding = 0) buffer Data { uint data[]; } buf;]
    together with the history of the stores performed on it. *)
Record Data := { data : list Z; stores : list Store }.

(** A buffer as the host binds it: no store performed yet. *)
Definition bind (contents : list Z) : Data :=
  {| data := contents; stores := [] |}.

(** [buf.data[idx] = v], issued by invocation [who].  A store outside the
    runtime-sized array is undefined: [None]. *)
Definition data_store (who idx v : Z) (buf : Data) : option Data :=
  if decide (0 <= idx < Z.of_nat (length (data buf))) then
    Some {| data := <[Z.to_nat idx := v]> (data buf);
            stores := stores buf ++ [{| writer := who; slot := idx |}] |}
  else None.

(** *** The entry point *)

(** [void main()] of one invocation, [gl_GlobalInvocationID_x] being the
    x component of its global invocation identifier. *)
Definition main (pc : PCData) (gl_GlobalInvocationID_x : Z) (buf : Data)
  : option Data :=
  let idx := gl_GlobalInvocationID_x in
  data_store gl_GlobalInvocationID_x idx
    (uint_mul idx (uint_of_int (multiple pc))) buf.

(** *** Dispatch *)

(** The invocations of [order] run one after the other. *)
Fixpoint run_invocations (pc : PCData) (order : list Z) (buf : Data)
  : option Data :=
  match order with
  | [] => Some buf
  | gid :: rest => main pc gid buf ≫= run_invocations pc rest
  end.

(** The identifiers of a dispatch over [N] invocations: [0, 1, ..., N-1]. *)
Definition invocation_ids (N : nat) : list Z := Z.of_nat <$> seq 0 N.

(** One dispatch over [N] invocations, in index order. *)
Definition dispatch (pc : PCData) (N : nat) (buf : Data) : option Data :=
  run_invocations pc (invocation_ids N) buf.

(** The stores that slot [j] received among [ss]. *)
Definition stores_to (j : Z) (ss : list Store) : list Store :=
  filter (λ s, slot s = j) ss.

(** A value of type [uint]. *)
Definition is_uint (z : Z) : Prop := 0 <= z < uint_modulus.

(** The identifiers of a batch of [M] invocations starting at [base]. *)
Definition batch_ids (base M : nat) : list Z := Z.of_nat <$> seq base M.

End Kernel.

(* ===================================================================== *)
(** ** The enumeration tables                                             *)
(* ===================================================================== *)

Module Enums.

Local Open Scope string_scope.

(** The initialiser of an enumerator: an integer literal, or the name of
    an enumerator declared before it. *)
Inductive initializer :=
  | Lit (z : Z)
  | Ref (canonical : string).

(** [typedef enum T { name = initializer, ... } T;] in declaration order. *)
Definition enum_decl := list (string * initializer).

(** The enumeration constants in scope, latest first. *)
Definition scope := list (string * Z).

Fixpoint lookup_constant (x : string) (sc : scope) : option Z :=
  match sc with
  | [] => None
  | (y, v) :: rest => if decide (x = y) then Some v else lookup_constant x rest
  end.

(** The value of an initialiser in a scope; a name that is not declared
    has none. *)
Definition eval_initializer (sc : scope) (i : initializer) : option Z :=
  match i with
  | Lit z => Some z
  | Ref c => lookup_constant c sc
  end.

(** Enumerators are evaluated in order, each one entering the scope of
    those that follow; redeclaring a name is an error. *)
Fixpoint declare (sc : scope) (d : enum_decl) : option scope :=
  match d with
  | [] => Some sc
  | (x, i) :: rest =>
      match lookup_constant x sc with
      | Some _ => None
      | None => v ← eval_initializer sc i; declare ((x, v) :: sc) rest
      end
  end.

(** The value of constant [x] of the enumeration [d]. *)
Definition value_of (d : enum_decl) (x : string) : option Z :=
  declare [] d ≫= lookup_constant x.

(** [build/headers/image_aspects.c] *)
Definition VkImageAspectFlagBits : enum_decl :=
  [ ("VK_IMAGE_ASPECT_COLOR_BIT", Lit 0x00000001);
    ("VK_IMAGE_ASPECT_DEPTH_BIT", Lit 0x00000002);
    ("VK_IMAGE_ASPECT_STENCIL_BIT", Lit 0x00000004);
    ("VK_IMAGE_ASPECT_METADATA_BIT", Lit 0x00000008);
    ("VK_IMAGE_ASPECT_PLANE_0_BIT", Lit 0x00000010);
    ("VK_IMAGE_ASPECT_PLANE_1_BIT", Lit 0x00000020);
    ("VK_IMAGE_ASPECT_PLANE_2_BIT", Lit 0x00000040);
    ("VK_IMAGE_ASPECT_NONE", Lit 0);
    ("VK_IMAGE_ASPECT_MEMORY_PLANE_0_BIT_EXT", Lit 0x00000080);
    ("VK_IMAGE_ASPECT_MEMORY_PLANE_1_BIT_EXT", Lit 0x00000100);
    ("VK_IMAGE_ASPECT_MEMORY_PLANE_2_BIT_EXT", Lit 0x00000200);
    ("VK_IMAGE_ASPECT_MEMORY_PLANE_3_BIT_EXT", Lit 0x00000400);
    ("VK_IMAGE_ASPECT_PLANE_0_BIT_KHR", Ref "VK_IMAGE_ASPECT_PLANE_0_BIT");
    ("VK_IMAGE_ASPECT_PLANE_1_BIT_KHR", Ref "VK_IMAGE_ASPECT_PLANE_1_BIT");
    ("VK_IMAGE_ASPECT_PLANE_2_BIT_KHR", Ref "VK_IMAGE_ASPECT_PLANE_2_BIT");
    ("VK_IMAGE_ASPECT_NONE_KHR", Ref "VK_IMAGE_ASPECT_NONE") ].

(** [build/headers/swapchain_flags.c] *)
Definition VkSwapchainCreateFlagBitsKHR : enum_decl :=
  [ ("VK_SWAPCHAIN_CREATE_SPLIT_INSTANCE_BIND_REGIONS_BIT_KHR", Lit 0x00000001);
    ("VK_SWAPCHAIN_CREATE_PROTECTED_BIT_KHR", Lit 0x00000002);
    ("VK_SWAPCHAIN_CREATE_MUTABLE_FORMAT_BIT_KHR", Lit 0x00000004);
    ("VK_SWAPCHAIN_CREATE_DEFERRED_MEMORY_ALLOCATION_BIT_EXT", Lit 0x00000008);
    ("VK_SWAPCHAIN_CREATE_PRESENT_ID_2_BIT_KHR", Lit 0x00000040);
    ("VK_SWAPCHAIN_CREATE_PRESENT_WAIT_2_BIT_KHR", Lit 0x00000080) ].

(** Provided by [VK_KHR_surface]; the last two enumerators are deprecated
    aliases. *)
Definition VkColorSpaceKHR : enum_decl :=
  [ ("VK_COLOR_SPACE_SRGB_NONLINEAR_KHR", Lit 0);
    ("VK_COLOR_SPACE_DISPLAY_P3_NONLINEAR_EXT", Lit 1000104001);
    ("VK_COLOR_SPACE_EXTENDED_SRGB_LINEAR_EXT", Lit 1000104002);
    ("VK_COLOR_SPACE_DISPLAY_P3_LINEAR_EXT", Lit 1000104003);
    ("VK_COLOR_SPACE_DCI_P3_NONLINEAR_EXT", Lit 1000104004);
    ("VK_COLOR_SPACE_BT709_LINEAR_EXT", Lit 1000104005);
    ("VK_COLOR_SPACE_BT709_NONLINEAR_EXT", Lit 1000104006);
    ("VK_COLOR_SPACE_BT2020_LINEAR_EXT", Lit 1000104007);
    ("VK_COLOR_SPACE_HDR10_ST2084_EXT", Lit 1000104008);
    ("VK_COLOR_SPACE_DOLBYVISION_EXT", Lit 1000104009);
    ("VK_COLOR_SPACE_HDR10_HLG_EXT", Lit 1000104010);
    ("VK_COLOR_SPACE_ADOBERGB_LINEAR_EXT", Lit 1000104011);
    ("VK_COLOR_SPACE_ADOBERGB_NONLINEAR_EXT", Lit 1000104012);
    ("VK_COLOR_SPACE_PASS_THROUGH_EXT", Lit 1000104013);
    ("VK_COLOR_SPACE_EXTENDED_SRGB_NONLINEAR_EXT", Lit 1000104014);
    ("VK_COLOR_SPACE_DISPLAY_NATIVE_AMD", Lit 1000213000);
    ("VK_COLORSPACE_SRGB_NONLINEAR_KHR", Ref "VK_COLOR_SPACE_SRGB_NONLINEAR_KHR");
    ("VK_COLOR_SPACE_DCI_P3_LINEAR_EXT", Ref "VK_COLOR_SPACE_DISPLAY_P3_LINEAR_EXT") ].

(** Provided by [VK_KHR_acceleration_structure]. *)
Definition VkAccelerationStructureCreateFlagBitsKHR : enum_decl :=
  [ ("VK_ACCELERATION_STRUCTURE_CREATE_DEVICE_ADDRESS_CAPTURE_REPLAY_BIT_KHR",
       Lit 0x00000001);
    ("VK_ACCELERATION_STRUCTURE_CREATE_DESCRIPTOR_BUFFER_CAPTURE_REPLAY_BIT_EXT",
       Lit 0x00000008);
    ("VK_ACCELERATION_STRUCTURE_CREATE_MOTION_BIT_NV", Lit 0x00000004) ].

(** Provided by [VK_VERSION_1_0]. *)
Definition VkAttachmentStoreOp : enum_decl :=
  [ ("VK_ATTACHMENT_STORE_OP_STORE", Lit 0);
    ("VK_ATTACHMENT_STORE_OP_DONT_CARE", Lit 1);
    ("VK_ATTACHMENT_STORE_OP_NONE", Lit 1000301000);
    ("VK_ATTACHMENT_STORE_OP_NONE_KHR", Ref "VK_ATTACHMENT_STORE_OP_NONE");
    ("VK_ATTACHMENT_STORE_OP_NONE_QCOM", Ref "VK_ATTACHMENT_STORE_OP_NONE");
    ("VK_ATTACHMENT_STORE_OP_NONE_EXT", Ref "VK_ATTACHMENT_STORE_OP_NONE") ].

(** Provided by [VK_VERSION_1_0]. *)
Definition VkImageViewCreateFlagBits : enum_decl :=
  [ ("VK_IMAGE_VIEW_CREATE_FRAGMENT_DENSITY_MAP_DYNAMIC_BIT_EXT", Lit 0x00000001);
    ("VK_IMAGE_VIEW_CREATE_DESCRIPTOR_BUFFER_CAPTURE_REPLAY_BIT_EXT", Lit 0x00000004);
    ("VK_IMAGE_VIEW_CREATE_FRAGMENT_DENSITY_MAP_DEFERRED_BIT_EXT", Lit 0x00000002) ].

(** Provided by [VK_KHR_surface]. *)
Definition VkPresentModeKHR : enum_decl :=
  [ ("VK_PRESENT_MODE_IMMEDIATE_KHR", Lit 0);
    ("VK_PRESENT_MODE_MAILBOX_KHR", Lit 1);
    ("VK_PRESENT_MODE_FIFO_KHR", Lit 2);
    ("VK_PRESENT_MODE_FIFO_RELAXED_KHR", Lit 3);
    ("VK_PRESENT_MODE_SHARED_DEMAND_REFRESH_KHR", Lit 1000111000);
    ("VK_PRESENT_MODE_SHARED_CONTINUOUS_REFRESH_KHR", Lit 1000111001);
    ("VK_PRESENT_MODE_FIFO_LATEST_READY_EXT", Lit 1000361000) ].

(** Provided by [VK_VERSION_1_0]. *)
Definition VkAttachmentLoadOp : enum_decl :=
  [ ("VK_ATTACHMENT_LOAD_OP_LOAD", Lit 0);
    ("VK_ATTACHMENT_LOAD_OP_CLEAR", Lit 1);
    ("VK_ATTACHMENT_LOAD_OP_DONT_CARE", Lit 2);
    ("VK_ATTACHMENT_LOAD_OP_NONE", Lit 1000400000);
    ("VK_ATTACHMENT_LOAD_OP_NONE_EXT", Ref "VK_ATTACHMENT_LOAD_OP_NONE");
    ("VK_ATTACHMENT_LOAD_OP_NONE_KHR", Ref "VK_ATTACHMENT_LOAD_OP_NONE") ].

(** Every enumeration of the repository. *)
Definition tables : list enum_decl :=
  [ VkImageAspectFlagBits; VkSwapchainCreateFlagBitsKHR; VkColorSpaceKHR;
    VkAccelerationStructureCreateFlagBitsKHR; VkAttachmentStoreOp;
    VkImageViewCreateFlagBits; VkPresentModeKHR; VkAttachmentLoadOp ].

(** The flag-bit enumerations. *)
Definition flag_tables : list enum_decl :=
  [ VkSwapchainCreateFlagBitsKHR; VkImageAspectFlagBits;
    VkImageViewCreateFlagBits; VkAccelerationStructureCreateFlagBitsKHR ].

(** An entry of a table agrees with the evaluated enumeration: a literal
    enumerator has the literal's value, an alias has the value of the
    enumerator it names. *)
Definition entry_ok (d : enum_decl) (e : string * initializer) : Prop :=
  match e.2 with
  | Lit z => value_of d e.1 = Some z
  | Ref c => is_Some (value_of d c) ∧ value_of d e.1 = value_of d c
  end.

#[global] Instance entry_ok_dec d e : Decision (entry_ok d e).
Proof. unfold entry_ok. destruct (e.2); apply _. Defined.

(** The flags of a flag-bit enumeration: the values of its enumerators
    that are neither aliases nor zero, in declaration order. *)
Fixpoint flag_bits (d : enum_decl) : list Z :=
  match d with
  | [] => []
  | (_, Lit z) :: rest => if decide (z = 0) then flag_bits rest else z :: flag_bits rest
  | (_, Ref _) :: rest => flag_bits rest
  end.

(** Bitwise-or of a list of flags. *)
Definition mask_of (fs : list Z) : Z := foldr Z.lor 0 fs.

(** The flags of [fs] set in [mask]. *)
Definition decompose (fs : list Z) (mask : Z) : list Z :=
  filter (λ f, Z.land mask f ≠ 0) fs.

(** [z] has exactly one bit set. *)
Definition power_of_two (z : Z) : Prop := ∃ k, 0 <= k ∧ z = 2 ^ k.

(** The enumerators of a table that are written with a literal, with that
    literal, in declaration order. *)
Fixpoint literals (d : enum_decl) : list (string * Z) :=
  match d with
  | [] => []
  | (x, Lit z) :: rest => (x, z) :: literals rest
  | (_, Ref _) :: rest => literals rest
  end.

(** The enumerators of a table that are written as aliases, with the name
    each one refers to. *)
Fixpoint aliases (d : enum_decl) : list (string * string) :=
  match d with
  | [] => []
  | (_, Lit _) :: rest => aliases rest
  | (x, Ref c) :: rest => (x, c) :: aliases rest
  end.

(** A value representable in the C type [int] (32 bits). *)
Definition is_int (z : Z) : Prop := - 2 ^ 31 <= z < 2 ^ 31.

End Enums.

(* ===================================================================== *)
(** ** Properties of the kernel                                           *)
(* ===================================================================== *)

Module KernelSpec.
Import Kernel.

(** The value invocation [i] stores, for multiplier [m]. *)
Lemma uint_mul_of_int (i m : Z) :
  uint_mul i (uint_of_int m) = (i * m) mod 2 ^ 32.
Proof.
  unfold uint_mul, uint_of_int, wrap_uint, uint_modulus.
  apply Z.mul_mod_idemp_r. lia.
Qed.

Lemma wrap_uint_range (z : Z) : 0 <= wrap_uint z < 2 ^ 32.
Proof. unfold wrap_uint, uint_modulus. apply Z.mod_pos_bound. lia. Qed.

Section one_invocation.
Variable pc : PCData.

Lemma main_in_bounds (gid : Z) (buf : Data) :
  0 <= gid < Z.of_nat (length (data buf)) →
  main pc gid buf =
    Some {| data := <[Z.to_nat gid := (gid * multiple pc) mod 2 ^ 32]> (data buf);
            stores := stores buf ++ [{| writer := gid; slot := gid |}] |}.
Proof.
  intros Hin. unfold main, data_store.
  rewrite decide_True by done. by rewrite uint_mul_of_int.
Qed.

Lemma main_out_of_bounds (gid : Z) (buf : Data) :
  ¬ (0 <= gid < Z.of_nat (length (data buf))) → main pc gid buf = None.
Proof. intros Hout. unfold main, data_store. by rewrite decide_False. Qed.

Lemma main_is_Some (gid : Z) (buf : Data) :
  is_Some (main pc gid buf) ↔ 0 <= gid < Z.of_nat (length (data buf)).
Proof.
  split.
  - intros [b Hb]. destruct (decide (0 <= gid < Z.of_nat (length (data buf))));
      [done | by rewrite main_out_of_bounds in Hb].
  - intros Hin. rewrite main_in_bounds by done. eauto.
Qed.
End one_invocation.

(** What a run of in-bounds invocations leaves behind, whatever their
    order and multiplicity. *)
Lemma run_invocations_spec (pc : PCData) (order : list Z) (buf : Data) :
  Forall (λ gid, 0 <= gid < Z.of_nat (length (data buf))) order →
  ∃ buf',
    run_invocations pc order buf = Some buf'
    ∧ length (data buf') = length (data buf)
    ∧ stores buf' = stores buf ++ ((λ gid, {| writer := gid; slot := gid |}) <$> order)
    ∧ (∀ j : nat, Z.of_nat j ∈ order →
         data buf' !! j = Some ((Z.of_nat j * multiple pc) mod 2 ^ 32))
    ∧ (∀ j : nat, Z.of_nat j ∉ order → data buf' !! j = data buf !! j).
Proof.
  revert buf. induction order as [|gid rest IH]; intros buf Hall.
  - exists buf. simpl. rewrite app_nil_r. repeat split; try done.
    intros j Hj. by apply elem_of_nil in Hj.
  - apply Forall_cons in Hall as [Hgid Hrest].
    simpl. rewrite main_in_bounds by done. simpl.
    set (buf1 := {| data := _; stores := _ |}).
    assert (Hlen1 : length (data buf1) = length (data buf))
      by (subst buf1; simpl; apply length_insert).
    destruct (IH buf1) as (buf' & Hrun & Hlen & Hst & Hin & Hout).
    { by rewrite Hlen1. }
    exists buf'. split; [done|]. split; [congruence|]. split.
    { rewrite Hst. subst buf1. simpl. by rewrite <- app_assoc. }
    split.
    + intros j Hj. destruct (decide (Z.of_nat j ∈ rest)) as [|Hnot]; [by apply Hin|].
      apply elem_of_cons in Hj as [Hj|]; [|done].
      rewrite Hout by done. subst buf1 gid. simpl.
      rewrite Nat2Z.id. apply list_lookup_insert_eq. lia.
    + intros j Hj. apply not_elem_of_cons in Hj as [Hne Hnot].
      rewrite Hout by done. subst buf1. simpl.
      apply list_lookup_insert_ne. lia.
Qed.

(** A run fails as soon as one of its invocations is out of bounds. *)
Lemma run_invocations_out_of_bounds (pc : PCData) (order : list Z) (buf : Data) :
  ¬ Forall (λ gid, 0 <= gid < Z.of_nat (length (data buf))) order →
  run_invocations pc order buf = None.
Proof.
  revert buf. induction order as [|gid rest IH]; intros buf Hnot.
  - destruct Hnot. constructor.
  - simpl. destruct (decide (0 <= gid < Z.of_nat (length (data buf)))) as [Hin|Hout].
    + rewrite main_in_bounds by done. simpl. apply IH. simpl.
      rewrite length_insert. intros Hrest. apply Hnot. by constructor.
    + by rewrite main_out_of_bounds.
Qed.

Lemma elem_of_invocation_ids (N : nat) (z : Z) :
  z ∈ invocation_ids N ↔ 0 <= z < Z.of_nat N.
Proof.
  unfold invocation_ids. rewrite list_elem_of_fmap. split.
  - intros (i & -> & Hi). apply elem_of_seq in Hi. lia.
  - intros Hz. exists (Z.to_nat z). split; [lia|]. apply elem_of_seq. lia.
Qed.

Lemma invocation_ids_in_bounds (N : nat) (buf : Data) :
  (N ≤ length (data buf))%nat →
  Forall (λ gid, 0 <= gid < Z.of_nat (length (data buf))) (invocation_ids N).
Proof.
  intros HN. apply Forall_forall. intros z Hz.
  apply elem_of_invocation_ids in Hz. lia.
Qed.

Lemma NoDup_invocation_ids (N : nat) : NoDup (invocation_ids N).
Proof.
  unfold invocation_ids. apply NoDup_fmap_2; [|apply NoDup_seq].
  intros a b. lia.
Qed.

(** Invocation identifiers are [uint] values whenever the dispatch size
    fits the identifier type. *)
Lemma invocation_ids_uint (N : nat) :
  Z.of_nat N <= uint_modulus →
  Forall (λ gid, wrap_uint gid = gid) (invocation_ids N).
Proof.
  intros HN. apply Forall_forall. intros z Hz.
  apply elem_of_invocation_ids in Hz.
  unfold wrap_uint. apply Z.mod_small. lia.
Qed.

(** The dispatch in closed form. *)
Lemma dispatch_spec (pc : PCData) (N : nat) (buf : Data) :
  (N ≤ length (data buf))%nat →
  ∃ buf',
    dispatch pc N buf = Some buf'
    ∧ length (data buf') = length (data buf)
    ∧ stores buf' =
        stores buf ++ ((λ gid, {| writer := gid; slot := gid |}) <$> invocation_ids N)
    ∧ (∀ i : nat, (i < N)%nat →
         data buf' !! i = Some ((Z.of_nat i * multiple pc) mod 2 ^ 32))
    ∧ (∀ j : nat, (N ≤ j)%nat → data buf' !! j = data buf !! j).
Proof.
  intros HN.
  destruct (run_invocations_spec pc (invocation_ids N) buf)
    as (buf' & Hrun & Hlen & Hst & Hin & Hout).
  { by apply invocation_ids_in_bounds. }
  exists buf'. repeat split; try done.
  - intros i Hi. apply Hin, elem_of_invocation_ids. lia.
  - intros j Hj. apply Hout. rewrite elem_of_invocation_ids. lia.
Qed.

(** On a buffer shorter than the dispatch size the dispatch reaches the
    undefined store. *)
Lemma dispatch_undersized (pc : PCData) (N : nat) (buf : Data) :
  (length (data buf) < N)%nat → dispatch pc N buf = None.
Proof.
  intros Hshort. apply run_invocations_out_of_bounds.
  rewrite Forall_forall. intros Hall.
  specialize (Hall (Z.of_nat (length (data buf)))).
  rewrite elem_of_invocation_ids in Hall. lia.
Qed.

Example dispatch_in_bounds_run :
  dispatch {| multiple := 3 |} 2 (bind [7; 7; 7]) =
    Some {| data := [0; 3; 7];
            stores := [{| writer := 0; slot := 0 |}; {| writer := 1; slot := 1 |}] |}.
Proof. reflexivity. Qed.

Example dispatch_undersized_run :
  dispatch {| multiple := 3 |} 4 (bind [7; 7; 7]) = None.
Proof. reflexivity. Qed.

(** The first [N] slots after a dispatch, as a list. *)
Lemma dispatch_take (pc : PCData) (N : nat) (buf buf' : Data) :
  (N ≤ length (data buf))%nat →
  dispatch pc N buf = Some buf' →
  take N (data buf') = (λ i, (i * multiple pc) mod 2 ^ 32) <$> invocation_ids N.
Proof.
  intros HN Hrun.
  destruct (dispatch_spec pc N buf HN) as (r & Hr & Hlen & _ & Hin & _).
  assert (r = buf') as -> by congruence.
  apply list_eq. intros i. destruct (decide (i < N)%nat) as [Hi|Hi].
  - rewrite lookup_take_lt by done. rewrite Hin by done.
    unfold invocation_ids. rewrite <- list_fmap_compose, list_lookup_fmap.
    by rewrite lookup_seq_lt by done.
  - rewrite lookup_take_ge by lia. symmetry. apply lookup_ge_None.
    unfold invocation_ids. rewrite !length_fmap, length_seq. lia.
Qed.

(** The stores a slot receives from invocations with distinct
    identifiers. *)
Lemma stores_to_distinct (j : Z) (order : list Z) :
  NoDup order →
  stores_to j ((λ gid, {| writer := gid; slot := gid |}) <$> order) =
    if decide (j ∈ order) then [{| writer := j; slot := j |}] else [].
Proof.
  unfold stores_to. induction 1 as [|gid rest Hfresh Hnd IH]; [done|].
  rewrite fmap_cons, filter_cons. simpl. rewrite IH.
  destruct (decide (gid = j)) as [->|Hne].
  - rewrite (decide_False (P := j ∈ rest)) by done.
    by rewrite (decide_True (P := j ∈ j :: rest)) by left.
  - destruct (decide (j ∈ rest)) as [Hj|Hj].
    + by rewrite (decide_True (P := j ∈ gid :: rest)) by (by right).
    + rewrite (decide_False (P := j ∈ gid :: rest)); [done|].
      apply not_elem_of_cons. split; [congruence | done].
Qed.

(** C1.  For every dispatch size [N], every multiplier and every buffer of
    length at least [N], one dispatch over [N] invocations succeeds and
    leaves in each slot [i < N] the product [i * multiple] reduced to 32
    unsigned bits. *)
Theorem dispatch_writes_scaled_index (pc : PCData) (N : nat) (buf : Data) :
  (N ≤ length (data buf))%nat →
  ∃ buf',
    dispatch pc N buf = Some buf'
    ∧ ∀ i : nat, (i < N)%nat →
        data buf' !! i = Some ((Z.of_nat i * multiple pc) mod 2 ^ 32).
Proof.
  intros HN. destruct (dispatch_spec pc N buf HN) as (buf' & Hrun & _ & _ & Hin & _).
  by exists buf'.
Qed.

Lemma dispatch_writes_scaled_index_witness :
  (2 ≤ length (data (bind [7; 7; 7]%Z)))%nat
  ∧ ∃ buf',
      dispatch {| multiple := 3 |} 2 (bind [7; 7; 7]) = Some buf'
      ∧ ∀ i : nat, (i < 2)%nat →
          data buf' !! i = Some ((Z.of_nat i * multiple {| multiple := 3 |}) mod 2 ^ 32).
Proof.
  split; [simpl; lia|].
  apply (dispatch_writes_scaled_index {| multiple := 3 |} 2 (bind [7; 7; 7])).
  simpl; lia.
Defined.

(** The history of a dispatch over [k <= N] invocations is the first [k]
    stores of the history of the dispatch over [N]. *)
Lemma take_issued (k N : nat) :
  (k ≤ N)%nat →
  take k ((λ gid, {| writer := gid; slot := gid |}) <$> invocation_ids N) =
    (λ gid, {| writer := gid; slot := gid |}) <$> invocation_ids k.
Proof.
  intros Hk. unfold invocation_ids.
  rewrite <- !fmap_take, take_seq. by rewrite Nat.min_l.
Qed.

(** C2.  One invocation performs exactly one store: it puts its product
    in the slot indexed by its own identifier, changes no other slot, and
    that store is the one entry it adds to the history.  Hence, after one
    dispatch over [N] invocations on a buffer of length at least [N]: the
    slots at indices [N] and above are unchanged and each slot [i < N]
    holds the product of invocation [i]; among the stores the dispatch
    issued each slot [i < N] received exactly one, from the invocation
    whose identifier is [i], and no other slot received any; and after the
    first [k] invocations exactly the slots below [k] have been written,
    by the first [k] stores of the history. *)
Theorem dispatch_frame_single_writer (pc : PCData) (N : nat) (buf : Data) :
  (N ≤ length (data buf))%nat →
  (∀ (gid : Z) (b : Data), 0 <= gid < Z.of_nat (length (data b)) →
     ∃ b',
       main pc gid b = Some b'
       ∧ data b' = <[Z.to_nat gid := (gid * multiple pc) mod 2 ^ 32]> (data b)
       ∧ stores b' = stores b ++ [{| writer := gid; slot := gid |}])
  ∧ ∃ buf' issued,
      dispatch pc N buf = Some buf'
      ∧ length (data buf') = length (data buf)
      ∧ (∀ j : nat, (N ≤ j)%nat → data buf' !! j = data buf !! j)
      ∧ (∀ i : nat, (i < N)%nat →
           data buf' !! i = Some ((Z.of_nat i * multiple pc) mod 2 ^ 32))
      ∧ stores buf' = stores buf ++ issued
      ∧ (∀ i : nat, (i < N)%nat →
           stores_to (Z.of_nat i) issued =
             [{| writer := Z.of_nat i; slot := Z.of_nat i |}])
      ∧ (∀ j : Z, ¬ (0 <= j < Z.of_nat N) → stores_to j issued = [])
      ∧ (∀ k : nat, (k ≤ N)%nat →
           ∃ bk,
             dispatch pc k buf = Some bk
             ∧ stores bk = stores buf ++ take k issued
             ∧ (∀ i : nat, (i < k)%nat →
                  data bk !! i = Some ((Z.of_nat i * multiple pc) mod 2 ^ 32))
             ∧ (∀ j : nat, (k ≤ j)%nat → data bk !! j = data buf !! j)).
Proof.
  intros HN. split.
  { intros gid b Hgid. eexists. split; [by apply main_in_bounds|]. done. }
  destruct (dispatch_spec pc N buf HN) as (buf' & Hrun & Hlen & Hst & Hin & Hout).
  exists buf', ((λ gid, {| writer := gid; slot := gid |}) <$> invocation_ids N).
  split; [done|]. split; [done|]. split; [done|]. split; [done|].
  split; [done|]. split; [|split].
  - intros i Hi. rewrite stores_to_distinct by apply NoDup_invocation_ids.
    rewrite decide_True; [done|]. apply elem_of_invocation_ids. lia.
  - intros j Hj. rewrite stores_to_distinct by apply NoDup_invocation_ids.
    rewrite decide_False; [done|]. by rewrite elem_of_invocation_ids.
  - intros k Hk.
    destruct (dispatch_spec pc k buf) as (bk & Hrunk & _ & Hstk & Hink & Houtk); [lia|].
    exists bk. split; [done|]. split; [|done].
    by rewrite take_issued.
Qed.

Lemma dispatch_frame_single_writer_witness :
  (2 ≤ length (data (bind [7; 8; 9]%Z)))%nat
  ∧ (∀ (gid : Z) (b : Data), 0 <= gid < Z.of_nat (length (data b)) →
       ∃ b',
         main {| multiple := 5 |} gid b = Some b'
         ∧ data b' =
             <[Z.to_nat gid := (gid * multiple {| multiple := 5 |}) mod 2 ^ 32]> (data b)
         ∧ stores b' = stores b ++ [{| writer := gid; slot := gid |}])
  ∧ ∃ buf' issued,
      dispatch {| multiple := 5 |} 2 (bind [7; 8; 9]) = Some buf'
      ∧ length (data buf') = length (data (bind [7; 8; 9]))
      ∧ (∀ j : nat, (2 ≤ j)%nat → data buf' !! j = data (bind [7; 8; 9]) !! j)
      ∧ (∀ i : nat, (i < 2)%nat →
           data buf' !! i =
             Some ((Z.of_nat i * multiple {| multiple := 5 |}) mod 2 ^ 32))
      ∧ stores buf' = stores (bind [7; 8; 9]) ++ issued
      ∧ (∀ i : nat, (i < 2)%nat →
           stores_to (Z.of_nat i) issued =
             [{| writer := Z.of_nat i; slot := Z.of_nat i |}])
      ∧ (∀ j : Z, ¬ (0 <= j < Z.of_nat 2) → stores_to j issued = [])
      ∧ (∀ k : nat, (k ≤ 2)%nat →
           ∃ bk,
             dispatch {| multiple := 5 |} k (bind [7; 8; 9]) = Some bk
             ∧ stores bk = stores (bind [7; 8; 9]) ++ take k issued
             ∧ (∀ i : nat, (i < k)%nat →
                  data bk !! i =
                    Some ((Z.of_nat i * multiple {| multiple := 5 |}) mod 2 ^ 32))
             ∧ (∀ j : nat, (k ≤ j)%nat →
                  data bk !! j = data (bind [7; 8; 9]) !! j)).
Proof.
  split; [simpl; lia|].
  apply (dispatch_frame_single_writer {| multiple := 5 |} 2 (bind [7; 8; 9])).
  simpl; lia.
Defined.

(** C3.  The concrete dispatches: [N = 1], [m = 1] leaves 0 in slot 0;
    [N = 4], [m = 2] leaves 0, 2, 4, 6 in slots 0 to 3; [N = 8], [m = 0]
    leaves 0 in all eight slots. *)
Theorem dispatch_scenarios (b1 b4 b8 : Data) :
  (1 ≤ length (data b1))%nat →
  (4 ≤ length (data b4))%nat →
  (8 ≤ length (data b8))%nat →
  (∃ r, dispatch {| multiple := 1 |} 1 b1 = Some r ∧ take 1 (data r) = [0])
  ∧ (∃ r, dispatch {| multiple := 2 |} 4 b4 = Some r
          ∧ take 4 (data r) = [0; 2; 4; 6])
  ∧ (∃ r, dispatch {| multiple := 0 |} 8 b8 = Some r
          ∧ take 8 (data r) = [0; 0; 0; 0; 0; 0; 0; 0]).
Proof.
  intros H1 H4 H8. split; [|split].
  - destruct (dispatch_spec {| multiple := 1 |} 1 b1 H1) as (r & Hr & _).
    exists r. split; [done|]. by rewrite (dispatch_take _ _ _ _ H1 Hr).
  - destruct (dispatch_spec {| multiple := 2 |} 4 b4 H4) as (r & Hr & _).
    exists r. split; [done|]. by rewrite (dispatch_take _ _ _ _ H4 Hr).
  - destruct (dispatch_spec {| multiple := 0 |} 8 b8 H8) as (r & Hr & _).
    exists r. split; [done|]. by rewrite (dispatch_take _ _ _ _ H8 Hr).
Qed.

Lemma dispatch_scenarios_witness :
  ((1 ≤ length (data (bind [5]%Z)))%nat
   ∧ (4 ≤ length (data (bind [5; 5; 5; 5; 5]%Z)))%nat
   ∧ (8 ≤ length (data (bind (replicate 8 5%Z))))%nat)
  ∧ (∃ r, dispatch {| multiple := 1 |} 1 (bind [5]) = Some r
          ∧ take 1 (data r) = [0])
  ∧ (∃ r, dispatch {| multiple := 2 |} 4 (bind [5; 5; 5; 5; 5]) = Some r
          ∧ take 4 (data r) = [0; 2; 4; 6])
  ∧ (∃ r, dispatch {| multiple := 0 |} 8 (bind (replicate 8 5)) = Some r
          ∧ take 8 (data r) = [0; 0; 0; 0; 0; 0; 0; 0]).
Proof.
  split; [simpl; lia|].
  apply (dispatch_scenarios (bind [5]) (bind [5; 5; 5; 5; 5]) (bind (replicate 8 5)));
    simpl; lia.
Defined.

(** C4.  With [N = 3] and [m = -1] the first three slots hold 0, -1 and -2
    wrapped to 32 unsigned bits: 0, 4294967295, 4294967294. *)
Theorem dispatch_negative_multiplier (buf : Data) :
  (3 ≤ length (data buf))%nat →
  ∃ r,
    dispatch {| multiple := -1 |} 3 buf = Some r
    ∧ take 3 (data r) = [0; 4294967295; 4294967294]
    ∧ take 3 (data r) = wrap_uint <$> [0; -1; -2].
Proof.
  intros H3. destruct (dispatch_spec {| multiple := -1 |} 3 buf H3) as (r & Hr & _).
  exists r. split; [done|]. by rewrite (dispatch_take _ _ _ _ H3 Hr).
Qed.

Lemma dispatch_negative_multiplier_witness :
  (3 ≤ length (data (bind [1; 1; 1; 1]%Z)))%nat
  ∧ ∃ r,
      dispatch {| multiple := -1 |} 3 (bind [1; 1; 1; 1]) = Some r
      ∧ take 3 (data r) = [0; 4294967295; 4294967294]
      ∧ take 3 (data r) = wrap_uint <$> [0; -1; -2].
Proof.
  split; [simpl; lia|].
  apply (dispatch_negative_multiplier (bind [1; 1; 1; 1])). simpl; lia.
Defined.

(** Two successful runs whose invocation sets coincide leave the same
    contents. *)
Lemma run_invocations_same_ids (pc : PCData) (o1 o2 : list Z) (buf : Data) :
  Forall (λ gid, 0 <= gid < Z.of_nat (length (data buf))) o1 →
  (∀ gid, gid ∈ o1 ↔ gid ∈ o2) →
  ∃ r1 r2,
    run_invocations pc o1 buf = Some r1
    ∧ run_invocations pc o2 buf = Some r2
    ∧ data r1 = data r2.
Proof.
  intros Hall Hsame.
  assert (Hall2 : Forall (λ gid, 0 <= gid < Z.of_nat (length (data buf))) o2).
  { rewrite Forall_forall in Hall. apply Forall_forall.
    intros gid Hgid. by apply Hall, Hsame. }
  destruct (run_invocations_spec pc o1 buf Hall) as (r1 & Hr1 & _ & _ & Hin1 & Hout1).
  destruct (run_invocations_spec pc o2 buf Hall2) as (r2 & Hr2 & _ & _ & Hin2 & Hout2).
  exists r1, r2. split; [done|]. split; [done|].
  apply list_eq. intros j. destruct (decide (Z.of_nat j ∈ o1)) as [Hj|Hj].
  - rewrite Hin1 by done. symmetry. by apply Hin2, Hsame.
  - rewrite Hout1 by done. symmetry. apply Hout2. by rewrite <- Hsame.
Qed.

(** C5.  Running the dispatch twice in a row with the same [N] and
    multiplier leaves the buffer contents exactly as one run does. *)
Theorem dispatch_idempotent (pc : PCData) (N : nat) (buf : Data) :
  (N ≤ length (data buf))%nat →
  ∃ once twice,
    dispatch pc N buf = Some once
    ∧ dispatch pc N buf ≫= dispatch pc N = Some twice
    ∧ data twice = data once.
Proof.
  intros HN.
  destruct (dispatch_spec pc N buf HN) as (once & Hrun & Hlen & _ & Hin & Hout).
  destruct (dispatch_spec pc N once) as (twice & Hrun' & _ & _ & Hin' & Hout');
    [lia|].
  exists once, twice. split; [done|]. rewrite Hrun. simpl. split; [done|].
  apply list_eq. intros j. destruct (decide (j < N)%nat).
  - by rewrite Hin', Hin.
  - apply Hout'. lia.
Qed.

Lemma dispatch_idempotent_witness :
  (2 ≤ length (data (bind [7; 8; 9]%Z)))%nat
  ∧ ∃ once twice,
      dispatch {| multiple := 5 |} 2 (bind [7; 8; 9]) = Some once
      ∧ dispatch {| multiple := 5 |} 2 (bind [7; 8; 9])
          ≫= dispatch {| multiple := 5 |} 2 = Some twice
      ∧ data twice = data once.
Proof.
  split; [simpl; lia|].
  apply (dispatch_idempotent {| multiple := 5 |} 2 (bind [7; 8; 9])).
  simpl; lia.
Defined.

(** C6.  For a given [N] and multiplier, runs over any two initial buffers
    of length at least [N], whatever their contents and store history,
    agree on every slot below [N], and what they write there is a function
    of [N] and the multiplier alone. *)
Theorem dispatch_deterministic (pc : PCData) (N : nat) (buf1 buf2 : Data) :
  (N ≤ length (data buf1))%nat →
  (N ≤ length (data buf2))%nat →
  ∃ r1 r2,
    dispatch pc N buf1 = Some r1
    ∧ dispatch pc N buf2 = Some r2
    ∧ (∀ i : nat, (i < N)%nat → data r1 !! i = data r2 !! i)
    ∧ take N (data r1) = (λ i, (i * multiple pc) mod 2 ^ 32) <$> invocation_ids N
    ∧ take N (data r2) = (λ i, (i * multiple pc) mod 2 ^ 32) <$> invocation_ids N.
Proof.
  intros H1 H2.
  destruct (dispatch_spec pc N buf1 H1) as (r1 & Hr1 & _ & _ & Hin1 & _).
  destruct (dispatch_spec pc N buf2 H2) as (r2 & Hr2 & _ & _ & Hin2 & _).
  exists r1, r2. split; [done|]. split; [done|]. split.
  - intros i Hi. by rewrite Hin1, Hin2.
  - split; [exact (dispatch_take pc N buf1 r1 H1 Hr1) | exact (dispatch_take pc N buf2 r2 H2 Hr2)].
Qed.

Lemma dispatch_deterministic_witness :
  ((2 ≤ length (data (bind [7; 8; 9]%Z)))%nat
   ∧ (2 ≤ length (data {| data := [1; 2]%Z; stores := [{| writer := 4; slot := 0 |}] |}))%nat)
  ∧ ∃ r1 r2,
      dispatch {| multiple := 5 |} 2 (bind [7; 8; 9]) = Some r1
      ∧ dispatch {| multiple := 5 |} 2
          {| data := [1; 2]; stores := [{| writer := 4; slot := 0 |}] |} = Some r2
      ∧ (∀ i : nat, (i < 2)%nat → data r1 !! i = data r2 !! i)
      ∧ take 2 (data r1) =
          (λ i, (i * multiple {| multiple := 5 |}) mod 2 ^ 32) <$> invocation_ids 2
      ∧ take 2 (data r2) =
          (λ i, (i * multiple {| multiple := 5 |}) mod 2 ^ 32) <$> invocation_ids 2.
Proof.
  split; [simpl; lia|].
  apply (dispatch_deterministic {| multiple := 5 |} 2 (bind [7; 8; 9])
           {| data := [1; 2]; stores := [{| writer := 4; slot := 0 |}] |});
    simpl; lia.
Defined.

(** C7.  When the buffer is at least as long as the dispatch size [N], no
    invocation with identifier in [[0, N)] reaches the undefined store:
    each one succeeds on the buffer, every run made of such invocations
    succeeds, and every store the run issues addresses a slot inside the
    buffer. *)
Theorem kernel_accesses_in_bounds (pc : PCData) (N : nat) (buf : Data) :
  (N ≤ length (data buf))%nat →
  (∀ gid, 0 <= gid < Z.of_nat N → is_Some (main pc gid buf))
  ∧ (∀ order, Forall (λ gid, 0 <= gid < Z.of_nat N) order →
       ∃ buf' issued,
         run_invocations pc order buf = Some buf'
         ∧ stores buf' = stores buf ++ issued
         ∧ Forall (λ s, 0 <= slot s < Z.of_nat (length (data buf))) issued)
  ∧ is_Some (dispatch pc N buf).
Proof.
  intros HN. split; [|split].
  - intros gid Hgid. apply main_is_Some. lia.
  - intros order Horder.
    assert (Hall : Forall (λ gid, 0 <= gid < Z.of_nat (length (data buf))) order).
    { eapply Forall_impl; [exact Horder|]. simpl. intros gid Hgid. lia. }
    destruct (run_invocations_spec pc order buf Hall) as (buf' & Hrun & _ & Hst & _).
    eexists buf', _. split; [done|]. split; [exact Hst|].
    by apply Forall_fmap.
  - destruct (dispatch_spec pc N buf HN) as (buf' & Hrun & _). eauto.
Qed.

Lemma kernel_accesses_in_bounds_witness :
  (2 ≤ length (data (bind [7; 8; 9]%Z)))%nat
  ∧ (∀ gid, 0 <= gid < Z.of_nat 2 →
       is_Some (main {| multiple := -4 |} gid (bind [7; 8; 9])))
  ∧ (∀ order, Forall (λ gid, 0 <= gid < Z.of_nat 2) order →
       ∃ buf' issued,
         run_invocations {| multiple := -4 |} order (bind [7; 8; 9]) = Some buf'
         ∧ stores buf' = stores (bind [7; 8; 9]) ++ issued
         ∧ Forall (λ s, 0 <= slot s < Z.of_nat (length (data (bind [7; 8; 9]))))
             issued)
  ∧ is_Some (dispatch {| multiple := -4 |} 2 (bind [7; 8; 9])).
Proof.
  split; [simpl; lia|].
  apply (kernel_accesses_in_bounds {| multiple := -4 |} 2 (bind [7; 8; 9])).
  simpl; lia.
Defined.

(** C8.  For every permutation of the identifiers [0 .. N-1], running the
    [N] invocations one after the other in the permuted order leaves
    exactly the buffer contents that running them in index order leaves. *)
Theorem dispatch_order_independent
    (pc : PCData) (N : nat) (buf : Data) (order : list Z) :
  (N ≤ length (data buf))%nat →
  order ≡ₚ invocation_ids N →
  ∃ permuted in_order,
    run_invocations pc order buf = Some permuted
    ∧ dispatch pc N buf = Some in_order
    ∧ data permuted = data in_order.
Proof.
  intros HN Hperm. unfold dispatch.
  apply run_invocations_same_ids.
  - rewrite Hperm. by apply invocation_ids_in_bounds.
  - intros gid. by rewrite Hperm.
Qed.

Lemma dispatch_order_independent_witness :
  ((3 ≤ length (data (bind [7; 8; 9; 10]%Z)))%nat
   ∧ [2; 0; 1] ≡ₚ invocation_ids 3)
  ∧ ∃ permuted in_order,
      run_invocations {| multiple := 5 |} [2; 0; 1] (bind [7; 8; 9; 10]) = Some permuted
      ∧ dispatch {| multiple := 5 |} 3 (bind [7; 8; 9; 10]) = Some in_order
      ∧ data permuted = data in_order.
Proof.
  assert (Hperm : [2; 0; 1] ≡ₚ invocation_ids 3).
  { change (invocation_ids 3) with [0; 1; 2].
    apply (Permutation_cons_app [0; 1] [] 2). apply Permutation_refl. }
  split; [split; [simpl; lia | exact Hperm]|].
  apply (dispatch_order_independent {| multiple := 5 |} 3 (bind [7; 8; 9; 10]) [2; 0; 1]).
  - simpl; lia.
  - exact Hperm.
Defined.

End KernelSpec.

(* ===================================================================== *)
(** ** Properties of the enumeration tables                               *)
(* ===================================================================== *)

Module EnumSpec.
Import Enums.

Local Open Scope string_scope.

(** *** Bit masks built from single-bit flags *)

Lemma testbit_mask_of (fs : list Z) (k : Z) :
  Z.testbit (mask_of fs) k = true ↔ ∃ f, f ∈ fs ∧ Z.testbit f k = true.
Proof.
  unfold mask_of. induction fs as [|f fs IH]; simpl.
  - rewrite Z.bits_0. split; [done|]. intros (f & Hf & _). by apply elem_of_nil in Hf.
  - rewrite Z.lor_spec, orb_true_iff, IH. split.
    + intros [Hf|(g & Hg & Hbit)]; [exists f | exists g]; split; try done;
        [left | by right].
    + intros (g & Hg & Hbit). apply elem_of_cons in Hg as [->|Hg]; [by left|].
      right. by exists g.
Qed.

Lemma testbit_pow2 (a b : Z) : 0 <= a → Z.testbit (2 ^ a) b = true ↔ a = b.
Proof. intros Ha. rewrite Z.pow2_bits_eqb by done. apply Z.eqb_eq. Qed.

Lemma land_pow2 (m k : Z) :
  0 <= k → Z.land m (2 ^ k) = if Z.testbit m k then 2 ^ k else 0.
Proof.
  intros Hk. apply Z.bits_inj'. intros n Hn.
  rewrite Z.land_spec, Z.pow2_bits_eqb by done.
  destruct (Z.eqb_spec k n) as [->|Hne].
  - destruct (Z.testbit m n); simpl; [|by rewrite Z.bits_0].
    rewrite Z.pow2_bits_eqb by done. symmetry. by apply Z.eqb_eq.
  - rewrite andb_false_r. destruct (Z.testbit m k); [|by rewrite Z.bits_0].
    rewrite Z.pow2_bits_eqb by done. symmetry. by apply Z.eqb_neq.
Qed.

Lemma land_pow2_nonzero (m k : Z) :
  0 <= k → Z.land m (2 ^ k) ≠ 0 ↔ Z.testbit m k = true.
Proof.
  intros Hk. rewrite land_pow2 by done.
  assert (0 < 2 ^ k) by (by apply Z.pow_pos_nonneg).
  destruct (Z.testbit m k); split; (done || lia).
Qed.

(** A single-bit flag is set in a mask of single-bit flags exactly when
    it is one of them. *)
Lemma flag_selected (fs : list Z) (f : Z) :
  Forall power_of_two fs → power_of_two f →
  Z.land (mask_of fs) f ≠ 0 ↔ f ∈ fs.
Proof.
  intros Hfs (k & Hk & ->). rewrite land_pow2_nonzero, testbit_mask_of by done.
  rewrite Forall_forall in Hfs. split.
  - intros (g & Hg & Hbit). destruct (Hfs g Hg) as (a & Ha & ->).
    apply testbit_pow2 in Hbit as ->; done.
  - intros Hin. exists (2 ^ k). split; [done|]. by apply testbit_pow2.
Qed.

Lemma flags_disjoint (x y : Z) :
  power_of_two x → power_of_two y → x ≠ y → Z.land x y = 0.
Proof.
  intros (a & Ha & ->) (b & Hb & ->) Hne.
  rewrite land_pow2 by done.
  destruct (Z.testbit (2 ^ a) b) eqn:Hbit; [|done].
  apply testbit_pow2 in Hbit; [|done]. by subst.
Qed.

Lemma filter_agree {A} (P Q : A → Prop)
    `{!∀ x, Decision (P x), !∀ x, Decision (Q x)} (l : list A) :
  (∀ x, x ∈ l → P x ↔ Q x) → filter P l = filter Q l.
Proof.
  induction l as [|a l IH]; intros Hiff; [done|].
  rewrite !filter_cons, IH by (intros x Hx; apply Hiff; by right).
  apply decide_ext, Hiff. left.
Qed.

Lemma filter_elem_of_sublist {A} `{EqDecision A} (S l : list A) :
  NoDup l → S `sublist_of` l → filter (.∈ S) l = S.
Proof.
  intros Hnd Hsub. induction Hsub as [|x S l Hsub IH|x S l Hsub IH].
  - done.
  - apply NoDup_cons in Hnd as [Hx Hnd].
    rewrite filter_cons_True by left. f_equal.
    etrans; [|exact (IH Hnd)]. apply filter_agree. intros y Hy.
    rewrite elem_of_cons. split; [|by right].
    intros [->|]; done.
  - apply NoDup_cons in Hnd as [Hx Hnd].
    rewrite filter_cons_False; [by apply IH|].
    intros HxS. apply Hx. by eapply elem_of_sublist.
Qed.

Section decomposition.
Variable fs : list Z.
Hypothesis fs_single_bits : Forall power_of_two fs.
Hypothesis fs_distinct : NoDup fs.

Lemma sublist_single_bits (S : list Z) :
  S `sublist_of` fs → Forall power_of_two S.
Proof.
  intros Hsub. rewrite Forall_forall in fs_single_bits. apply Forall_forall.
  intros x Hx. eapply fs_single_bits, elem_of_sublist; done.
Qed.

Lemma decompose_mask_of (S : list Z) :
  S `sublist_of` fs → decompose fs (mask_of S) = S.
Proof.
  intros Hsub. unfold decompose.
  etrans; [|exact (filter_elem_of_sublist S fs fs_distinct Hsub)].
  apply filter_agree. intros f Hf. apply flag_selected.
  - by apply sublist_single_bits.
  - rewrite Forall_forall in fs_single_bits. by apply fs_single_bits.
Qed.

Lemma mask_of_inj (S T : list Z) :
  S `sublist_of` fs → T `sublist_of` fs → mask_of S = mask_of T → S = T.
Proof.
  intros HS HT Heq.
  rewrite <- (decompose_mask_of S HS), <- (decompose_mask_of T HT).
  by rewrite Heq.
Qed.
End decomposition.

(** A checkable form of [power_of_two]. *)
Lemma power_of_two_log2 (z : Z) : 0 < z → z = 2 ^ Z.log2 z → power_of_two z.
Proof. intros Hpos Heq. exists (Z.log2 z). split; [apply Z.log2_nonneg | done]. Qed.

Lemma flag_tables_single_bits (d : enum_decl) :
  d ∈ flag_tables → Forall power_of_two (flag_bits d) ∧ NoDup (flag_bits d).
Proof.
  unfold flag_tables. rewrite !elem_of_cons, elem_of_nil.
  intros [->|[->|[->|[->|[]]]]]; (split;
    [ repeat (apply Forall_cons; split; [by apply power_of_two_log2|]);
      apply Forall_nil_2
    | by apply (bool_decide_unpack _) ]).
Qed.

(** Every table is a well-formed declaration: no enumerator is declared
    twice and every alias names an enumerator declared before it. *)
Lemma tables_declared : Forall (λ d, is_Some (declare [] d)) tables.
Proof.
  unfold tables.
  repeat (apply Forall_cons; split; [eexists; vm_compute; reflexivity|]).
  apply Forall_nil_2.
Qed.

(** C9.  In every enumeration table each enumerator with a literal has the
    value of that literal and each alias has the value of the enumerator
    it names; in particular the deprecated colour-space aliases, the
    store-op [NONE] aliases and the [_KHR] image-aspect aliases have the
    values of their canonical enumerators. *)
Theorem enum_constants_as_written :
  Forall (λ d, Forall (entry_ok d) d) tables
  ∧ (value_of VkColorSpaceKHR "VK_COLORSPACE_SRGB_NONLINEAR_KHR" = Some 0
     ∧ value_of VkColorSpaceKHR "VK_COLOR_SPACE_SRGB_NONLINEAR_KHR" = Some 0)
  ∧ (value_of VkColorSpaceKHR "VK_COLOR_SPACE_DCI_P3_LINEAR_EXT" = Some 1000104003
     ∧ value_of VkColorSpaceKHR "VK_COLOR_SPACE_DISPLAY_P3_LINEAR_EXT" = Some 1000104003)
  ∧ (value_of VkAttachmentStoreOp "VK_ATTACHMENT_STORE_OP_NONE_KHR" = Some 1000301000
     ∧ value_of VkAttachmentStoreOp "VK_ATTACHMENT_STORE_OP_NONE_QCOM" = Some 1000301000
     ∧ value_of VkAttachmentStoreOp "VK_ATTACHMENT_STORE_OP_NONE_EXT" = Some 1000301000
     ∧ value_of VkAttachmentStoreOp "VK_ATTACHMENT_STORE_OP_NONE" = Some 1000301000)
  ∧ (value_of VkImageAspectFlagBits "VK_IMAGE_ASPECT_PLANE_0_BIT_KHR" = Some 0x10
     ∧ value_of VkImageAspectFlagBits "VK_IMAGE_ASPECT_PLANE_0_BIT" = Some 0x10
     ∧ value_of VkImageAspectFlagBits "VK_IMAGE_ASPECT_PLANE_1_BIT_KHR" = Some 0x20
     ∧ value_of VkImageAspectFlagBits "VK_IMAGE_ASPECT_PLANE_1_BIT" = Some 0x20
     ∧ value_of VkImageAspectFlagBits "VK_IMAGE_ASPECT_PLANE_2_BIT_KHR" = Some 0x40
     ∧ value_of VkImageAspectFlagBits "VK_IMAGE_ASPECT_PLANE_2_BIT" = Some 0x40
     ∧ value_of VkImageAspectFlagBits "VK_IMAGE_ASPECT_NONE_KHR" = Some 0
     ∧ value_of VkImageAspectFlagBits "VK_IMAGE_ASPECT_NONE" = Some 0).
Proof.
  split.
  - unfold tables.
    repeat (apply Forall_cons; split;
      [apply (bool_decide_unpack _); vm_compute; exact I|]).
    apply Forall_nil_2.
  - repeat split; vm_compute; reflexivity.
Qed.

(** C10.  In each flag-bit enumeration the enumerators that are neither
    zero nor aliases are distinct powers of two; any two different ones
    have no bit in common; and a bitwise-or of a selection of them
    determines the selection: it is recovered by testing each flag
    against the mask, and two selections with the same mask are equal. *)
Theorem flag_bits_decompose (d : enum_decl) :
  d ∈ flag_tables →
  Forall power_of_two (flag_bits d)
  ∧ NoDup (flag_bits d)
  ∧ (∀ x y, x ∈ flag_bits d → y ∈ flag_bits d → x ≠ y → Z.land x y = 0)
  ∧ (∀ S, S `sublist_of` flag_bits d → decompose (flag_bits d) (mask_of S) = S)
  ∧ (∀ S T, S `sublist_of` flag_bits d → T `sublist_of` flag_bits d →
       mask_of S = mask_of T → S = T).
Proof.
  intros Hd. destruct (flag_tables_single_bits d Hd) as [Hbits Hnd].
  split; [done|]. split; [done|]. split; [|split].
  - intros x y Hx Hy. rewrite Forall_forall in Hbits.
    apply flags_disjoint; by apply Hbits.
  - intros S. by apply decompose_mask_of.
  - intros S T. by apply mask_of_inj.
Qed.

Lemma flag_bits_decompose_witness :
  VkSwapchainCreateFlagBitsKHR ∈ flag_tables
  ∧ Forall power_of_two (flag_bits VkSwapchainCreateFlagBitsKHR)
  ∧ NoDup (flag_bits VkSwapchainCreateFlagBitsKHR)
  ∧ (∀ x y, x ∈ flag_bits VkSwapchainCreateFlagBitsKHR →
       y ∈ flag_bits VkSwapchainCreateFlagBitsKHR → x ≠ y → Z.land x y = 0)
  ∧ (∀ S, S `sublist_of` flag_bits VkSwapchainCreateFlagBitsKHR →
       decompose (flag_bits VkSwapchainCreateFlagBitsKHR) (mask_of S) = S)
  ∧ (∀ S T, S `sublist_of` flag_bits VkSwapchainCreateFlagBitsKHR →
       T `sublist_of` flag_bits VkSwapchainCreateFlagBitsKHR →
       mask_of S = mask_of T → S = T).
Proof.
  assert (Hd : VkSwapchainCreateFlagBitsKHR ∈ flag_tables) by left.
  split; [exact Hd|]. exact (flag_bits_decompose VkSwapchainCreateFlagBitsKHR Hd).
Defined.

End EnumSpec.

(* ===================================================================== *)
(** ** Further properties of the kernel                                   *)
(* ===================================================================== *)

Module KernelLaws.
Import Kernel KernelSpec.

(** Running one list of invocations after another is running their
    concatenation. *)
Lemma run_invocations_app (pc : PCData) (o1 o2 : list Z) (buf : Data) :
  run_invocations pc (o1 ++ o2) buf =
    run_invocations pc o1 buf ≫= run_invocations pc o2.
Proof.
  revert buf. induction o1 as [|gid o1 IH]; intros buf; [done|].
  simpl. destruct (main pc gid buf) as [buf1|]; [|done]. simpl. apply IH.
Qed.

Lemma invocation_ids_split (N M : nat) :
  invocation_ids (N + M) = invocation_ids N ++ batch_ids N M.
Proof. unfold invocation_ids, batch_ids. by rewrite seq_app, fmap_app. Qed.

(** X1.  A run of invocations succeeds exactly when every identifier in it
    addresses a slot of the buffer; hence a dispatch over [N] invocations
    succeeds exactly when the buffer has at least [N] slots. *)
Theorem run_succeeds_iff_in_bounds (pc : PCData) (buf : Data) :
  (∀ order,
     is_Some (run_invocations pc order buf)
     ↔ Forall (λ gid, 0 <= gid < Z.of_nat (length (data buf))) order)
  ∧ (∀ N : nat, is_Some (dispatch pc N buf) ↔ (N ≤ length (data buf))%nat).
Proof.
  split.
  - intros order. split.
    + intros Hsome.
      destruct (decide (Forall (λ gid, 0 <= gid < Z.of_nat (length (data buf))) order))
        as [|Hnot]; [done|].
      rewrite (run_invocations_out_of_bounds pc order buf Hnot) in Hsome.
      by destruct Hsome.
    + intros Hall. destruct (run_invocations_spec pc order buf Hall) as (r & Hr & _).
      by exists r.
  - intros N. split.
    + intros Hsome. destruct (decide (N ≤ length (data buf))%nat) as [|Hshort]; [done|].
      rewrite dispatch_undersized in Hsome by lia. by destruct Hsome.
    + intros HN. destruct (dispatch_spec pc N buf HN) as (r & Hr & _). by exists r.
Qed.

(** X2.  A buffer of [uint] values stays one: after any successful run
    every slot still holds a value in [[0, 2^32)]. *)
Theorem run_keeps_uint (pc : PCData) (order : list Z) (buf buf' : Data) :
  Forall is_uint (data buf) →
  run_invocations pc order buf = Some buf' →
  Forall is_uint (data buf').
Proof.
  revert buf. induction order as [|gid rest IH]; intros buf Hty Hrun.
  - simpl in Hrun. by simplify_eq.
  - simpl in Hrun.
    destruct (decide (0 <= gid < Z.of_nat (length (data buf)))) as [Hin|Hout].
    + rewrite main_in_bounds in Hrun by done. simpl in Hrun.
      eapply IH; [|exact Hrun]. simpl. apply Forall_insert; [done|].
      unfold is_uint, uint_modulus. apply Z.mod_pos_bound. lia.
    + by rewrite main_out_of_bounds in Hrun.
Qed.

Lemma run_keeps_uint_witness :
  (Forall is_uint (data (bind [7; 8; 9]))
   ∧ run_invocations {| multiple := -1 |} [1; 0] (bind [7; 8; 9]) =
       Some {| data := [0; 4294967295; 9];
               stores := [{| writer := 1; slot := 1 |}; {| writer := 0; slot := 0 |}] |})
  ∧ Forall is_uint [0; 4294967295; 9].
Proof.
  assert (Hty : Forall is_uint (data (bind [7; 8; 9]))).
  { simpl. repeat constructor; unfold is_uint, uint_modulus; lia. }
  split; [split; [exact Hty | reflexivity]|].
  exact (run_keeps_uint {| multiple := -1 |} [1; 0] (bind [7; 8; 9]) _ Hty eq_refl).
Defined.

(** X3.  When the multiplier is non-negative and the largest product
    [(N-1) * multiple] fits 32 unsigned bits, no wrap-around occurs: slot
    [i] holds the exact product [i * multiple], for every [i < N]. *)
Theorem dispatch_exact_without_overflow (pc : PCData) (N : nat) (buf : Data) :
  (N ≤ length (data buf))%nat →
  0 <= multiple pc →
  (Z.of_nat N - 1) * multiple pc < 2 ^ 32 →
  ∃ buf',
    dispatch pc N buf = Some buf'
    ∧ ∀ i : nat, (i < N)%nat → data buf' !! i = Some (Z.of_nat i * multiple pc).
Proof.
  intros HN Hm Hfit.
  destruct (dispatch_spec pc N buf HN) as (buf' & Hrun & _ & _ & Hin & _).
  exists buf'. split; [done|]. intros i Hi. rewrite Hin by done.
  f_equal. apply Z.mod_small. nia.
Qed.

Lemma dispatch_exact_without_overflow_witness :
  ((3 ≤ length (data (bind [7; 8; 9]%Z)))%nat
   ∧ 0 <= multiple {| multiple := 2000000000 |}
   ∧ (Z.of_nat 3 - 1) * multiple {| multiple := 2000000000 |} < 2 ^ 32)
  ∧ ∃ buf',
      dispatch {| multiple := 2000000000 |} 3 (bind [7; 8; 9]) = Some buf'
      ∧ ∀ i : nat, (i < 3)%nat →
          data buf' !! i = Some (Z.of_nat i * multiple {| multiple := 2000000000 |}).
Proof.
  split; [simpl; lia|].
  apply (dispatch_exact_without_overflow {| multiple := 2000000000 |} 3 (bind [7; 8; 9]));
    simpl; lia.
Defined.

(** X4.  Two dispatches in a row, with their own sizes and multipliers:
    the second overwrites the slots it covers, the slots only the first
    covers keep the first one's products, and the slots neither covers keep
    their initial contents. *)
Theorem dispatch_then_dispatch
    (pc1 pc2 : PCData) (N1 N2 : nat) (buf : Data) :
  (N1 ≤ length (data buf))%nat →
  (N2 ≤ length (data buf))%nat →
  ∃ r,
    dispatch pc1 N1 buf ≫= dispatch pc2 N2 = Some r
    ∧ (∀ i : nat, (i < N2)%nat →
         data r !! i = Some ((Z.of_nat i * multiple pc2) mod 2 ^ 32))
    ∧ (∀ i : nat, (N2 ≤ i < N1)%nat →
         data r !! i = Some ((Z.of_nat i * multiple pc1) mod 2 ^ 32))
    ∧ (∀ i : nat, (N1 ≤ i)%nat → (N2 ≤ i)%nat → data r !! i = data buf !! i).
Proof.
  intros H1 H2.
  destruct (dispatch_spec pc1 N1 buf H1) as (r1 & Hr1 & Hlen1 & _ & Hin1 & Hout1).
  destruct (dispatch_spec pc2 N2 r1) as (r & Hr & _ & _ & Hin2 & Hout2); [lia|].
  exists r. rewrite Hr1. simpl. split; [done|]. split; [done|]. split.
  - intros i [Hlo Hhi]. rewrite Hout2 by done. by apply Hin1.
  - intros i Hi1 Hi2. rewrite Hout2 by done. by apply Hout1.
Qed.

Lemma dispatch_then_dispatch_witness :
  ((3 ≤ length (data (bind [7; 8; 9; 10]%Z)))%nat
   ∧ (1 ≤ length (data (bind [7; 8; 9; 10]%Z)))%nat)
  ∧ ∃ r,
      dispatch {| multiple := 5 |} 3 (bind [7; 8; 9; 10])
        ≫= dispatch {| multiple := -2 |} 1 = Some r
      ∧ (∀ i : nat, (i < 1)%nat →
           data r !! i = Some ((Z.of_nat i * multiple {| multiple := -2 |}) mod 2 ^ 32))
      ∧ (∀ i : nat, (1 ≤ i < 3)%nat →
           data r !! i = Some ((Z.of_nat i * multiple {| multiple := 5 |}) mod 2 ^ 32))
      ∧ (∀ i : nat, (3 ≤ i)%nat → (1 ≤ i)%nat →
           data r !! i = data (bind [7; 8; 9; 10]) !! i).
Proof.
  split; [simpl; lia|].
  apply (dispatch_then_dispatch {| multiple := 5 |} {| multiple := -2 |} 3 1
           (bind [7; 8; 9; 10])); simpl; lia.
Defined.

(** Splitting the identifier list of a dispatch at [N]. *)
Lemma dispatch_split (pc : PCData) (N M : nat) (buf : Data) :
  dispatch pc (N + M) buf =
    dispatch pc N buf ≫= run_invocations pc (batch_ids N M).
Proof.
  unfold dispatch. rewrite invocation_ids_split. apply run_invocations_app.
Qed.

Lemma elem_of_batch_ids (N M : nat) (z : Z) :
  z ∈ batch_ids N M ↔ Z.of_nat N <= z < Z.of_nat (N + M).
Proof.
  unfold batch_ids. rewrite list_elem_of_fmap. split.
  - intros (i & -> & Hi). apply elem_of_seq in Hi. lia.
  - intros Hz. exists (Z.to_nat z). split; [lia|]. apply elem_of_seq. lia.
Qed.

(** X5.  Dispatching in two batches.  On a buffer of length at least
    [N + M], the batch of the [M] invocations with identifiers
    [N .. N+M-1] writes exactly the slots [N .. N+M-1], each with its
    product, and leaves every other slot as it was; and running that batch
    before or after the dispatch over the first [N] invocations leaves the
    buffer contents of the single dispatch over [N + M]. *)
Theorem dispatch_in_batches (pc : PCData) (N M : nat) (buf : Data) :
  (N + M ≤ length (data buf))%nat →
  ∃ batch whole after before,
    run_invocations pc (batch_ids N M) buf = Some batch
    ∧ (∀ i : nat, (N ≤ i < N + M)%nat →
         data batch !! i = Some ((Z.of_nat i * multiple pc) mod 2 ^ 32))
    ∧ (∀ j : nat, ¬ (N ≤ j < N + M)%nat → data batch !! j = data buf !! j)
    ∧ dispatch pc (N + M) buf = Some whole
    ∧ dispatch pc N buf ≫= run_invocations pc (batch_ids N M) = Some after
    ∧ run_invocations pc (batch_ids N M) buf ≫= dispatch pc N = Some before
    ∧ data after = data whole
    ∧ data before = data whole.
Proof.
  intros HNM.
  assert (Hbatch : Forall (λ gid, 0 <= gid < Z.of_nat (length (data buf)))
                     (batch_ids N M)).
  { apply Forall_forall. intros z Hz. apply elem_of_batch_ids in Hz. lia. }
  destruct (run_invocations_spec pc (batch_ids N M) buf Hbatch)
    as (batch & Hrun & _ & _ & Hin & Hout).
  destruct (run_invocations_same_ids pc
              (batch_ids N M ++ invocation_ids N) (invocation_ids (N + M)) buf)
    as (before & whole & Hbefore & Hwhole & Heq).
  { apply Forall_app. split; [done|]. apply invocation_ids_in_bounds. lia. }
  { intros gid.
    rewrite elem_of_app, elem_of_batch_ids, !elem_of_invocation_ids. lia. }
  exists batch, whole, whole, before.
  split; [done|]. split.
  { intros i Hi. apply Hin, elem_of_batch_ids. lia. }
  split.
  { intros j Hj. apply Hout. rewrite elem_of_batch_ids. lia. }
  split; [done|]. split.
  { by rewrite <- dispatch_split. }
  split; [|done].
  rewrite run_invocations_app in Hbefore. done.
Qed.

Lemma dispatch_in_batches_witness :
  (1 + 2 ≤ length (data (bind [7; 8; 9; 10]%Z)))%nat
  ∧ ∃ batch whole after before,
      run_invocations {| multiple := 5 |} (batch_ids 1 2) (bind [7; 8; 9; 10]) = Some batch
      ∧ (∀ i : nat, (1 ≤ i < 1 + 2)%nat →
           data batch !! i =
             Some ((Z.of_nat i * multiple {| multiple := 5 |}) mod 2 ^ 32))
      ∧ (∀ j : nat, ¬ (1 ≤ j < 1 + 2)%nat →
           data batch !! j = data (bind [7; 8; 9; 10]) !! j)
      ∧ dispatch {| multiple := 5 |} (1 + 2) (bind [7; 8; 9; 10]) = Some whole
      ∧ dispatch {| multiple := 5 |} 1 (bind [7; 8; 9; 10])
          ≫= run_invocations {| multiple := 5 |} (batch_ids 1 2) = Some after
      ∧ run_invocations {| multiple := 5 |} (batch_ids 1 2) (bind [7; 8; 9; 10])
          ≫= dispatch {| multiple := 5 |} 1 = Some before
      ∧ data after = data whole
      ∧ data before = data whole.
Proof.
  split; [simpl; lia|].
  apply (dispatch_in_batches {| multiple := 5 |} 1 2 (bind [7; 8; 9; 10])).
  simpl; lia.
Defined.

(** X6.  The contents after a run of in-bounds invocations, in closed
    form: slot [j] holds the wrapped product [j * multiple] when [j] is
    among the identifiers run, and its previous value otherwise; the run
    appends to the store history one store per invocation, in the order
    run, each to the invocation's own slot. *)
Theorem run_closed_form (pc : PCData) (order : list Z) (buf : Data) :
  Forall (λ gid, 0 <= gid < Z.of_nat (length (data buf))) order →
  ∃ buf',
    run_invocations pc order buf = Some buf'
    ∧ data buf' =
        imap (λ j old, if decide (Z.of_nat j ∈ order)
                       then (Z.of_nat j * multiple pc) mod 2 ^ 32 else old)
             (data buf)
    ∧ stores buf' =
        stores buf ++ ((λ gid, {| writer := gid; slot := gid |}) <$> order).
Proof.
  intros Hall.
  destruct (run_invocations_spec pc order buf Hall) as (buf' & Hrun & Hlen & Hst & Hin & Hout).
  exists buf'. split; [done|]. split.
  - apply list_eq. intros j. rewrite list_lookup_imap.
    destruct (data buf !! j) as [old|] eqn:Hold; simpl.
    + destruct (decide (Z.of_nat j ∈ order)) as [Hj|Hj].
      * by apply Hin.
      * by rewrite Hout.
    + apply lookup_ge_None. rewrite Hlen. by apply lookup_ge_None.
  - done.
Qed.

Lemma run_closed_form_witness :
  Forall (λ gid, 0 <= gid < Z.of_nat (length (data (bind [7; 8; 9])))) [2; 0; 2]
  ∧ ∃ buf',
      run_invocations {| multiple := 3 |} [2; 0; 2] (bind [7; 8; 9]) = Some buf'
      ∧ data buf' =
          imap (λ j old, if decide (Z.of_nat j ∈ [2; 0; 2])
                         then (Z.of_nat j * multiple {| multiple := 3 |}) mod 2 ^ 32
                         else old)
               (data (bind [7; 8; 9]))
      ∧ stores buf' =
          stores (bind [7; 8; 9])
            ++ ((λ gid, {| writer := gid; slot := gid |}) <$> [2; 0; 2]).
Proof.
  assert (Hall : Forall (λ gid, 0 <= gid < Z.of_nat (length (data (bind [7; 8; 9]))))
                   [2; 0; 2]).
  { simpl. repeat constructor; lia. }
  split; [exact Hall|].
  exact (run_closed_form {| multiple := 3 |} [2; 0; 2] (bind [7; 8; 9]) Hall).
Defined.

End KernelLaws.

(* ===================================================================== *)
(** ** Further properties of the enumeration tables                       *)
(* ===================================================================== *)

Module EnumLaws.
Import Enums EnumSpec.

Local Open Scope string_scope.

Lemma lookup_constant_elem (x : string) (sc : scope) (v : Z) :
  lookup_constant x sc = Some v → (x, v) ∈ sc.
Proof.
  induction sc as [|[y w] sc IH]; simpl; [done|].
  destruct (decide (x = y)) as [->|Hne].
  - intros [= ->]. left.
  - intros Hrest. right. by apply IH.
Qed.

Lemma elem_of_literals (d : enum_decl) (x : string) (z : Z) :
  (x, z) ∈ literals d ↔ (x, Lit z) ∈ d.
Proof.
  induction d as [|[y [w|c]] d IH]; simpl.
  - by rewrite !elem_of_nil.
  - rewrite !elem_of_cons, IH. split; (intros [Heq|]; [left|by right]); by simplify_eq.
  - rewrite elem_of_cons, IH. split; [by right|]. by intros [|].
Qed.

Lemma NoDup_snd_inj {A B} (l : list (A * B)) (x y : A) (z : B) :
  NoDup l.*2 → (x, z) ∈ l → (y, z) ∈ l → x = y.
Proof.
  induction l as [|[a b] l IH]; simpl; intros Hnd Hx Hy.
  - by apply elem_of_nil in Hx.
  - apply NoDup_cons in Hnd as [Hfresh Hnd].
    assert (Hsnd : ∀ u, (u, z) ∈ l → z ∈ l.*2).
    { intros u Hu. apply list_elem_of_fmap. by exists (u, z). }
    apply elem_of_cons in Hx as [Hx|Hx]; apply elem_of_cons in Hy as [Hy|Hy];
      simplify_eq; try done.
    + destruct Hfresh. by eapply Hsnd.
    + destruct Hfresh. by eapply Hsnd.
    + by apply IH.
Qed.

(** The evaluated tables agree with their entries. *)
Lemma tables_entries (d : enum_decl) (e : string * initializer) :
  d ∈ tables → e ∈ d → entry_ok d e.
Proof.
  intros Hd He. revert e He. apply Forall_forall. revert d Hd. apply Forall_forall.
  unfold tables.
  repeat (apply Forall_cons; split;
    [apply (bool_decide_unpack _); vm_compute; exact I|]).
  apply Forall_nil_2.
Qed.

Lemma tables_literals_distinct (d : enum_decl) :
  d ∈ tables → NoDup (literals d).*2.
Proof.
  revert d. apply Forall_forall. unfold tables.
  repeat (apply Forall_cons; split;
    [apply (bool_decide_unpack _); vm_compute; exact I|]).
  apply Forall_nil_2.
Qed.

Lemma tables_scopes (d : enum_decl) :
  d ∈ tables →
  ∃ sc, declare [] d = Some sc ∧ Forall (λ e, 0 <= e.2 ∧ is_int e.2) sc.
Proof.
  revert d. apply Forall_forall. unfold tables.
  repeat (apply Forall_cons; split;
    [eexists; split;
       [vm_compute; reflexivity
       | repeat (apply Forall_cons; split; [unfold is_int; simpl; lia|]);
         apply Forall_nil_2]|]).
  apply Forall_nil_2.
Qed.

(** X7.  Every enumeration is a well-formed declaration: no name is
    declared twice, evaluation succeeds, and every alias names an
    enumerator of the same enumeration that is written with a literal
    (there is no alias of an alias). *)
Theorem tables_well_formed :
  Forall (λ d, NoDup d.*1
               ∧ is_Some (declare [] d)
               ∧ Forall (λ a, a.2 ∈ (literals d).*1) (aliases d)) tables.
Proof.
  unfold tables.
  repeat (apply Forall_cons; split;
    [apply (bool_decide_unpack _); vm_compute; exact I|]).
  apply Forall_nil_2.
Qed.

(** X8.  Every enumeration constant has a non-negative value representable
    in a 32-bit [int]. *)
Theorem enum_values_fit_int (d : enum_decl) (x : string) (v : Z) :
  d ∈ tables → value_of d x = Some v → 0 <= v ∧ is_int v.
Proof.
  intros Hd Hv. destruct (tables_scopes d Hd) as (sc & Hsc & Hfit).
  unfold value_of in Hv. rewrite Hsc in Hv. simpl in Hv.
  apply lookup_constant_elem in Hv. rewrite Forall_forall in Hfit.
  exact (Hfit _ Hv).
Qed.

Lemma enum_values_fit_int_witness :
  (VkAttachmentLoadOp ∈ tables
   ∧ value_of VkAttachmentLoadOp "VK_ATTACHMENT_LOAD_OP_NONE_KHR" = Some 1000400000)
  ∧ 0 <= 1000400000 ∧ is_int 1000400000.
Proof.
  assert (Hd : VkAttachmentLoadOp ∈ tables) by (by apply (list_elem_of_lookup_2 _ 7%nat)).
  assert (Hv : value_of VkAttachmentLoadOp "VK_ATTACHMENT_LOAD_OP_NONE_KHR"
               = Some 1000400000) by (vm_compute; reflexivity).
  split; [split; [exact Hd | exact Hv]|].
  exact (enum_values_fit_int VkAttachmentLoadOp "VK_ATTACHMENT_LOAD_OP_NONE_KHR"
           1000400000 Hd Hv).
Defined.

(** X9.  Within an enumeration, two enumerators written with literals that
    evaluate to the same value are the same enumerator: apart from the
    aliases, a value identifies its name. *)
Theorem canonical_values_distinct
    (d : enum_decl) (x y : string) (zx zy : Z) :
  d ∈ tables →
  (x, Lit zx) ∈ d → (y, Lit zy) ∈ d →
  value_of d x = value_of d y →
  x = y.
Proof.
  intros Hd Hx Hy Heq.
  pose proof (tables_entries d _ Hd Hx) as Hvx.
  pose proof (tables_entries d _ Hd Hy) as Hvy.
  unfold entry_ok in Hvx, Hvy. simpl in Hvx, Hvy.
  assert (zx = zy) as -> by congruence.
  apply (NoDup_snd_inj (literals d) x y zy).
  - by apply tables_literals_distinct.
  - by apply elem_of_literals.
  - by apply elem_of_literals.
Qed.

Lemma canonical_values_distinct_witness :
  (VkPresentModeKHR ∈ tables
   ∧ ("VK_PRESENT_MODE_FIFO_KHR", Lit 2) ∈ VkPresentModeKHR
   ∧ ("VK_PRESENT_MODE_FIFO_KHR", Lit 2) ∈ VkPresentModeKHR
   ∧ value_of VkPresentModeKHR "VK_PRESENT_MODE_FIFO_KHR" =
       value_of VkPresentModeKHR "VK_PRESENT_MODE_FIFO_KHR")
  ∧ "VK_PRESENT_MODE_FIFO_KHR" = "VK_PRESENT_MODE_FIFO_KHR".
Proof.
  assert (Hd : VkPresentModeKHR ∈ tables) by (by apply (list_elem_of_lookup_2 _ 6%nat)).
  assert (Hx : ("VK_PRESENT_MODE_FIFO_KHR", Lit 2) ∈ VkPresentModeKHR)
    by (by apply (list_elem_of_lookup_2 _ 2%nat)).
  split; [by repeat split|].
  exact (canonical_values_distinct VkPresentModeKHR _ _ 2 2 Hd Hx Hx eq_refl).
Defined.

(** *** Testing, clearing and bounding masks *)

Lemma land_lnot_pow2 (a k : Z) :
  0 <= a → 0 <= k → a ≠ k → Z.land (2 ^ a) (Z.lnot (2 ^ k)) = 2 ^ a.
Proof.
  intros Ha Hk Hne. apply Z.bits_inj'. intros n Hn.
  rewrite Z.land_spec, Z.lnot_spec, !Z.pow2_bits_eqb by done.
  destruct (Z.eqb_spec a n) as [->|]; [|done].
  simpl. by destruct (Z.eqb_spec k n) as [->|].
Qed.

Lemma mask_of_clear (S : list Z) (k : Z) :
  Forall power_of_two S → 0 <= k →
  Z.land (mask_of S) (Z.lnot (2 ^ k)) = mask_of (filter (λ g, g ≠ 2 ^ k) S).
Proof.
  intros HS Hk. induction HS as [|g S (a & Ha & ->) HS IH]; [done|].
  rewrite filter_cons. change (mask_of (2 ^ a :: S)) with (Z.lor (2 ^ a) (mask_of S)).
  rewrite Z.land_lor_distr_l, IH.
  destruct (decide (2 ^ a ≠ 2 ^ k)) as [Hne|Heq].
  - rewrite land_lnot_pow2; [done..|]. by intros ->.
  - apply dec_stable in Heq. rewrite Heq.
    rewrite <- Z.ldiff_land, Z.ldiff_diag. apply Z.lor_0_l.
Qed.

Lemma lor_bound (a b k : Z) :
  0 <= k → 0 <= a < 2 ^ k → 0 <= b < 2 ^ k → 0 <= Z.lor a b < 2 ^ k.
Proof.
  intros Hk Ha Hb. split; [apply Z.lor_nonneg; lia|].
  destruct (decide (Z.lor a b = 0)) as [->|Hnz]; [lia|].
  assert (0 <= Z.lor a b) by (apply Z.lor_nonneg; lia).
  apply Z.log2_lt_pow2; [lia|]. rewrite Z.log2_lor by lia.
  destruct (decide (a = 0)) as [->|]; destruct (decide (b = 0)) as [->|].
  - by destruct Hnz.
  - rewrite Z.max_r by apply Z.log2_nonneg. apply Z.log2_lt_pow2; lia.
  - rewrite Z.max_l by apply Z.log2_nonneg. apply Z.log2_lt_pow2; lia.
  - apply Z.max_lub_lt; apply Z.log2_lt_pow2; lia.
Qed.

Lemma mask_of_bound (S : list Z) (k : Z) :
  0 <= k → Forall (λ f, 0 <= f < 2 ^ k) S → 0 <= mask_of S < 2 ^ k.
Proof.
  intros Hk. induction 1 as [|f S Hf HS IH].
  - simpl. split; [done|]. by apply Z.pow_pos_nonneg.
  - change (mask_of (f :: S)) with (Z.lor f (mask_of S)). by apply lor_bound.
Qed.

Lemma flag_tables_bits_low (d : enum_decl) :
  d ∈ flag_tables → Forall (λ f, 0 <= f < 2 ^ 11) (flag_bits d).
Proof.
  revert d. apply Forall_forall. unfold flag_tables.
  repeat (apply Forall_cons; split;
    [apply (bool_decide_unpack _); vm_compute; exact I|]).
  apply Forall_nil_2.
Qed.

(** X10.  For a mask built from any selection [S] of the flags of a
    flag-bit enumeration and any flag [f] of it: and-ing the mask with [f]
    gives [f] when [f] was selected and 0 otherwise, and and-ing it with
    the complement of [f] gives the mask of the selection without [f]. *)
Theorem flag_test_and_clear (d : enum_decl) (S : list Z) (f : Z) :
  d ∈ flag_tables →
  S `sublist_of` flag_bits d →
  f ∈ flag_bits d →
  Z.land (mask_of S) f = (if decide (f ∈ S) then f else 0)
  ∧ Z.land (mask_of S) (Z.lnot f) = mask_of (filter (λ g, g ≠ f) S).
Proof.
  intros Hd HS Hf. destruct (flag_tables_single_bits d Hd) as [Hbits Hnd].
  pose proof (sublist_single_bits _ Hbits S HS) as HSbits.
  rewrite Forall_forall in Hbits. pose proof (Hbits f Hf) as Hpow.
  split.
  - pose proof (flag_selected S f HSbits Hpow) as Hsel.
    destruct Hpow as (k & Hk & ->). rewrite land_pow2 in * by done.
    assert (0 < 2 ^ k) by (by apply Z.pow_pos_nonneg).
    destruct (decide (2 ^ k ∈ S)) as [Hin|Hout].
    + apply Hsel in Hin. by destruct (Z.testbit (mask_of S) k).
    + destruct (Z.testbit (mask_of S) k); [|done].
      destruct Hout. apply Hsel. lia.
  - destruct Hpow as (k & Hk & ->). by apply mask_of_clear.
Qed.

Lemma flag_test_and_clear_witness :
  (VkImageViewCreateFlagBits ∈ flag_tables
   ∧ [1; 2] `sublist_of` flag_bits VkImageViewCreateFlagBits
   ∧ 2 ∈ flag_bits VkImageViewCreateFlagBits)
  ∧ Z.land (mask_of [1; 2]) 2 = (if decide (2 ∈ [1; 2]) then 2 else 0)
  ∧ Z.land (mask_of [1; 2]) (Z.lnot 2) = mask_of (filter (λ g, g ≠ 2) [1; 2]).
Proof.
  assert (Hd : VkImageViewCreateFlagBits ∈ flag_tables)
    by (by apply (list_elem_of_lookup_2 _ 2%nat)).
  assert (HS : [1; 2] `sublist_of` flag_bits VkImageViewCreateFlagBits).
  { change (flag_bits VkImageViewCreateFlagBits) with [1; 4; 2].
    apply sublist_skip, sublist_cons, sublist_skip, sublist_nil. }
  assert (Hf : 2 ∈ flag_bits VkImageViewCreateFlagBits)
    by (by apply (list_elem_of_lookup_2 _ 2%nat)).
  split; [by repeat split|].
  exact (flag_test_and_clear VkImageViewCreateFlagBits [1; 2] 2 Hd HS Hf).
Defined.

(** X11.  A mask built from any selection of the flags of a flag-bit
    enumeration is non-negative and below [2^11]; it fits the 32-bit flags
    word with room to spare. *)
Theorem flag_mask_bounded (d : enum_decl) (S : list Z) :
  d ∈ flag_tables →
  S `sublist_of` flag_bits d →
  0 <= mask_of S < 2 ^ 11.
Proof.
  intros Hd HS. apply mask_of_bound; [done|].
  pose proof (flag_tables_bits_low d Hd) as Hlow.
  rewrite Forall_forall in Hlow. apply Forall_forall.
  intros f Hf. eapply Hlow, elem_of_sublist; done.
Qed.

Lemma flag_mask_bounded_witness :
  (VkImageAspectFlagBits ∈ flag_tables
   ∧ [1; 64; 1024] `sublist_of` flag_bits VkImageAspectFlagBits)
  ∧ 0 <= mask_of [1; 64; 1024] < 2 ^ 11.
Proof.
  assert (Hd : VkImageAspectFlagBits ∈ flag_tables)
    by (by apply (list_elem_of_lookup_2 _ 1%nat)).
  assert (HS : [1; 64; 1024] `sublist_of` flag_bits VkImageAspectFlagBits).
  { change (flag_bits VkImageAspectFlagBits)
      with [1; 2; 4; 8; 16; 32; 64; 128; 256; 512; 1024].
    apply sublist_skip. do 5 apply sublist_cons. apply sublist_skip.
    do 3 apply sublist_cons. apply sublist_skip, sublist_nil. }
  split; [by split|].
  exact (flag_mask_bounded VkImageAspectFlagBits [1; 64; 1024] Hd HS).
Defined.

(** X12.  The eight enumerations can be declared together in one scope:
    no name occurs in two of them, the joint declaration evaluates, and in
    the joint scope every enumerator has the value it has in its own
    enumeration. *)
Theorem tables_coexist :
  NoDup (mjoin tables).*1
  ∧ is_Some (declare [] (mjoin tables))
  ∧ Forall (λ d, Forall (λ x, value_of (mjoin tables) x = value_of d x) d.*1) tables.
Proof.
  split; [|split].
  - apply (bool_decide_unpack _). vm_compute. exact I.
  - apply (bool_decide_unpack _). vm_compute. exact I.
  - unfold tables at 2.
    repeat (apply Forall_cons; split;
      [apply (bool_decide_unpack _); vm_compute; exact I|]).
    apply Forall_nil_2.
Qed.

End EnumLaws.
